(** * coalib.core.DependencyTracker: a shallow embedding

    The Python class [DependencyTracker] owns a single attribute, the
    dictionary [_dependency_dict], which maps a dependency to the set of its
    dependants.  Identities are opaque hashable objects: here any type [K]
    with decidable equality that is countable.  The dictionary is a
    [gmap K (gset K)]; Python compares dictionaries and sets extensionally,
    and so does [=] on [gmap] and [gset].

    Every set stored in the dictionary is created by [add] with a fresh
    [set()], and [resolve] hands out a new set built by [-]; no two keys
    ever share a set object, so in-place mutation of a stored set is an
    update of the dictionary at that key.

    A loop over a dictionary or a set runs over [map_to_list] or [elements].
    Python's iteration order (insertion order for a dictionary, hash order
    for a set) is not modelled: every result below is a set or a dictionary,
    and only the choice of the node named by [CircularDependencyError]
    depends on the order. *)

From stdpp Require Import gmap list fin_maps fin_sets relations.

Set Warnings "-clear-no-such-hyp".

(** ** Python exceptions and the result of a call *)

Inductive exn (K : Type) : Type :=
| KeyError (key : K)
| CircularDependencyError (node : K).
Arguments KeyError {K} key.
Arguments CircularDependencyError {K} node.

(** A call returns a value, raises, or (for the recursive graph walk, which
    is run with a recursion budget) exhausts its budget. *)
Inductive res (K A : Type) : Type :=
| Return (a : A)
| Raise (e : exn K)
| OutOfFuel.
Arguments Return {K A} a.
Arguments Raise {K A} e.
Arguments OutOfFuel {K A}.

Definition bind {K A B} (c : res K A) (k : A → res K B) : res K B :=
  match c with
  | Return a => k a
  | Raise e => Raise e
  | OutOfFuel => OutOfFuel
  end.

Notation "x ←! c ; k" := (bind c (λ x, k))
  (at level 20, c at level 100, k at level 200, only parsing).
Notation "' x ←! c ; k" := (bind c (λ x, k))
  (at level 20, x pattern, c at level 100, k at level 200, only parsing).

(** ** Dictionary and set primitives that can raise *)

Section primitives.
Context {K : Type} `{!EqDecision K, !Countable K}.

(** [d[key]] *)
Definition getitem (d : gmap K (gset K)) (key : K) : res K (gset K) :=
  match d !! key with
  | Some v => Return v
  | None => Raise (KeyError key)
  end.

(** [del d[key]] *)
Definition delitem (d : gmap K (gset K)) (key : K) : res K (gmap K (gset K)) :=
  match d !! key with
  | Some _ => Return (delete key d)
  | None => Raise (KeyError key)
  end.

(** [s.remove(x)] *)
Definition set_remove (x : K) (s : gset K) : res K (gset K) :=
  if decide (x ∈ s) then Return (s ∖ {[x]}) else Raise (KeyError x).

(** [d.get(key, frozenset())] *)
Definition get_or_empty (d : gmap K (gset K)) (key : K) : gset K :=
  default ∅ (d !! key).
End primitives.

(** ** coalib.core.Graphs.traverse_graph *)

Module Graphs.
Section defs.
Context {K : Type} `{!EqDecision K, !Countable K}.

(** The state of a node during the walk; an unvisited node has no mark. *)
Inductive mark : Type := OnPath | Processed.

(** Modelled from the spec: [coalib/core/Graphs.py] (the depth-first walk
    called by [check_circular_dependencies]) is not among the sources.
    Section 4.2 of the specification: a depth-first walk tracking three node
    states, unvisited, on the current path, fully processed.  Revisiting a
    node that is on the current path fails at once and reports the repeated
    node; a fully processed node is never walked again.  The recursion is
    bounded by [fuel]. *)
Fixpoint visit (fuel : nat) (get_successive_nodes : K → list K)
    (node : K) (marks : gmap K mark) : res K (gmap K mark) :=
  match fuel with
  | 0 => OutOfFuel
  | S fuel =>
    match marks !! node with
    | Some OnPath => Raise (CircularDependencyError node)
    | Some Processed => Return marks
    | None =>
      marks ←!
        foldl (λ acc subnode,
                 marks ←! acc; visit fuel get_successive_nodes subnode marks)
              (Return (<[node := OnPath]> marks))
              (get_successive_nodes node);
      Return (<[node := Processed]> marks)
    end
  end.

(** Modelled from the spec: the walk from every root, with the marks kept
    across roots (section 4.2: the processed set is memoized across
    roots); all state is local to one invocation. *)
Definition traverse_graph (fuel : nat) (start_nodes : list K)
    (get_successive_nodes : K → list K) : res K unit :=
  _ ←!
    foldl (λ acc node,
             marks ←! acc; visit fuel get_successive_nodes node marks)
          (Return ∅) start_nodes;
  Return ().
End defs.
End Graphs.

(** ** The tracker *)

Module DependencyTracker.
Section defs.
Context {K : Type} `{!EqDecision K, !Countable K}.

Local Abbreviation tracker := (gmap K (gset K)).

(** [__init__]: [self._dependency_dict = {}] *)
Definition init : tracker := ∅.

(** [add(self, dependency, dependant)] *)
Definition add (dependency dependant : K) (self : tracker) : res K tracker :=
  let self :=
    if decide (dependency ∈ dom self) then self
    else <[dependency := ∅]> self in
  dependants ←! getitem self dependency;
  Return (<[dependency := dependants ∪ {[dependant]}]> self).

(** First loop of [resolve]: one iteration for the item
    [(tracked_dependency, dependants)].  The state is the dictionary
    together with the list [dependencies_to_remove]. *)
Definition purge_item (dependency : K)
    (acc : res K (tracker * list K)) (item : K * gset K)
    : res K (tracker * list K) :=
  '(self, dependencies_to_remove) ←! acc;
  let '(tracked_dependency, dependants) := item in
  if decide (dependency ∈ dependants) then
    dependants ←! set_remove dependency dependants;
    let self := <[tracked_dependency := dependants]> self in
    if decide (dependants = ∅) then
      Return (self, dependencies_to_remove ++ [tracked_dependency])
    else Return (self, dependencies_to_remove)
  else Return (self, dependencies_to_remove).

(** Second loop of [resolve]: [del self._dependency_dict[tracked_dependency]] *)
Definition remove_item (acc : res K tracker) (tracked_dependency : K)
    : res K tracker :=
  self ←! acc; delitem self tracked_dependency.

(** Inner loop of the third loop: does some remaining dependant-set contain
    the candidate?  ([existsb] stops at the first hit, like [break].) *)
Definition still_waiting (self : tracker) (possible_freed_dependant : K) : bool :=
  existsb (λ dependants : gset K,
             bool_decide (possible_freed_dependant ∈ dependants))
          ((map_to_list self).*2).

(** [resolve(self, dependency)]: returns the freed dependants and the new
    state of the tracker. *)
Definition resolve (dependency : K) (self : tracker) : res K (gset K * tracker) :=
  '(self, dependencies_to_remove) ←!
    foldl (purge_item dependency) (Return (self, [])) (map_to_list self);
  self ←! foldl remove_item (Return self) dependencies_to_remove;
  let possible_freed_dependants := get_or_empty self dependency in
  let self := delete dependency self in
  let non_free_dependants :=
    foldl (λ (non_free : gset K) possible_freed_dependant,
             if still_waiting self possible_freed_dependant
             then non_free ∪ {[possible_freed_dependant]}
             else non_free)
          ∅ (elements possible_freed_dependants) in
  Return (possible_freed_dependants ∖ non_free_dependants, self).

(** [all_dependencies_resolved]: [len(self._dependency_dict) == 0] *)
Definition all_dependencies_resolved (self : tracker) : bool :=
  bool_decide (size self = 0).

(** [check_circular_dependencies(self)]:
    [traverse_graph(self._dependency_dict.keys(),
                    lambda node: self._dependency_dict.get(node, frozenset()))].
    A walk never goes deeper than one node per key plus a leaf, which gives
    the recursion budget. *)
Definition check_circular_dependencies (self : tracker) : res K unit :=
  Graphs.traverse_graph (S (size self))
    (map_to_list self).*1
    (λ node, elements (get_or_empty self node)).

(** Modelled from the spec: [get_dependants] is called by the doctests of
    the class but its body is not among the sources.  Section 4.1: the set
    of nodes that currently depend on [node], the direct entry if present;
    empty for an unknown node. *)
Definition get_dependants (node : K) (self : tracker) : gset K :=
  get_or_empty self node.

(** Modelled from the spec: [get_dependencies] is called by the doctests of
    the class but its body is not among the sources.  Section 4.1: the set
    of nodes [node] currently depends on, derived by scanning all entries
    whose set contains [node]. *)
Definition get_dependencies (node : K) (self : tracker) : gset K :=
  dom (filter (λ item : K * gset K, node ∈ item.2) self).

(** A call made on the tracker by its client. *)
Inductive call : Type :=
| Add (dependency dependant : K)
| Resolve (dependency : K).

(** What a call returns: [add] returns [None], [resolve] a set. *)
Definition step (c : call) (self : tracker)
    : res K (option (gset K) * tracker) :=
  match c with
  | Add dependency dependant =>
      self ←! add dependency dependant self;
      Return (None, self)
  | Resolve dependency =>
      '(freed, self) ←! resolve dependency self;
      Return (Some freed, self)
  end.

(** A sequence of calls, made one after the other on the same tracker. *)
Definition exec (calls : list call) (self : tracker) : res K tracker :=
  foldl (λ acc c, self ←! acc; '(_, self) ←! step c self; Return self)
        (Return self) calls.

(** [resolve(a)] then [resolve(b)]: the union of the freed sets and the
    final state. *)
Definition resolve_both (a b : K) (self : tracker) : res K (gset K * tracker) :=
  '(freed_a, self) ←! resolve a self;
  '(freed_b, self) ←! resolve b self;
  Return (freed_a ∪ freed_b, self).
End defs.
Arguments call K : clear implicits.
End DependencyTracker.

(** ** Closed forms of the loops *)

Section closed_forms.
Context {K : Type} `{!EqDecision K, !Countable K}.

Local Abbreviation tracker := (gmap K (gset K)).

(** [t] is registered as a dependant of [d]. *)
Definition edge (self : tracker) (d t : K) : Prop := t ∈ get_or_empty self d.

(** No key holds an empty set. *)
Definition no_empty_entry (self : tracker) : Prop :=
  ∀ k v, self !! k = Some v → v ≠ ∅.

(** What the first two loops of [resolve] leave under a key that held
    [dependants]: [None] when the key is deleted. *)
Definition purged (dependency : K) (dependants : gset K) : option (gset K) :=
  if decide (dependency ∈ dependants) then
    if decide (dependants ∖ {[dependency]} = ∅) then None
    else Some (dependants ∖ {[dependency]})
  else Some dependants.

(** The dictionary after the first two loops of [resolve]. *)
Definition purge (dependency : K) (self : tracker) : tracker :=
  omap (purged dependency) self.

(** The keys the first loop of [resolve] schedules for removal, in the
    order of the items [l]. *)
Definition emptied (dependency : K) (l : list (K * gset K)) : list K :=
  (filter (λ item : K * gset K,
             dependency ∈ item.2 ∧ item.2 ∖ {[dependency]} = ∅) l).*1.

(** The dictionary after [resolve]. *)
Definition resolved (dependency : K) (self : tracker) : tracker :=
  delete dependency (purge dependency self).

(** The set returned by [resolve]. *)
Definition freed (dependency : K) (self : tracker) : gset K :=
  filter (λ t, DependencyTracker.still_waiting (resolved dependency self) t = false)
         (get_or_empty (purge dependency self) dependency).

(** The dictionary after [add]. *)
Definition added (dependency dependant : K) (self : tracker) : tracker :=
  <[dependency := get_or_empty self dependency ∪ {[dependant]}]> self.

(** The dictionary after a call. *)
Definition state_after (c : DependencyTracker.call K) (self : tracker) : tracker :=
  match c with
  | DependencyTracker.Add dependency dependant => added dependency dependant self
  | DependencyTracker.Resolve dependency => resolved dependency self
  end.

(** The dictionary after a sequence of calls. *)
Definition state_after_all (calls : list (DependencyTracker.call K))
    (self : tracker) : tracker :=
  foldl (λ self c, state_after c self) self calls.

(** The set of claim C1, in its words: the dependants of [dependency]
    that, after the entry of [dependency] is removed and [dependency] is
    purged from all other dependant-sets, appear under no remaining key. *)
Definition dependants_not_listed (dependency : K) (self : tracker) : gset K :=
  filter (λ t, DependencyTracker.still_waiting
                 ((λ v, v ∖ {[dependency]}) <$> delete dependency self) t = false)
         (get_or_empty self dependency).

(** [x] occurs nowhere in the dictionary. *)
Definition absent (x : K) (self : tracker) : Prop :=
  self !! x = None ∧ ∀ k v, self !! k = Some v → x ∉ v.

(** No call of [calls] resolves [d] or [t]. *)
Definition unresolved_in (d t : K) (calls : list (DependencyTracker.call K)) : Prop :=
  ∀ x, DependencyTracker.Resolve x ∈ calls → x ≠ d ∧ x ≠ t.

(** The edge [(d, t)] was added by [calls] and neither end was resolved
    afterwards. *)
Definition live (d t : K) (calls : list (DependencyTracker.call K)) : Prop :=
  ∃ before after,
    calls = before ++ DependencyTracker.Add d t :: after ∧ unresolved_in d t after.

(** [b] is a successor of [a]. *)
Definition successor (get_successive_nodes : K → list K) : relation K :=
  λ a b, b ∈ get_successive_nodes a.

(** What holds of the marks between two visits: the successors of a
    processed node are processed, and no processed node lies on a cycle. *)
Definition walk_inv (g : K → list K) (marks : gmap K Graphs.mark) : Prop :=
  ∀ u, marks !! u = Some Graphs.Processed →
    (∀ v, v ∈ g u → marks !! v = Some Graphs.Processed)
    ∧ ¬ tc (successor g) u u.

(** What a walk over [nodes] started with [marks] ends in. *)
Definition walk_post (g : K → list K) (marks : gmap K Graphs.mark)
    (nodes : list K) (r : res K (gmap K Graphs.mark)) : Prop :=
  match r with
  | Return marks' =>
      walk_inv g marks'
      ∧ (∀ v, v ∈ nodes → marks' !! v = Some Graphs.Processed)
      ∧ (∀ u mk, marks !! u = Some mk → marks' !! u = Some mk)
      ∧ (∀ u, marks' !! u = Some Graphs.OnPath → marks !! u = Some Graphs.OnPath)
  | Raise e => ∃ c, e = CircularDependencyError c ∧ tc (successor g) c c
  | OutOfFuel => False
  end.

(** The edges registered by a list of [add] calls. *)
Definition registered (adds : list (K * K)) : relation K :=
  λ d t, (d, t) ∈ adds.

(** The calls [add(d, t)] for the pairs of [adds], in order. *)
Definition add_calls (adds : list (K * K)) : list (DependencyTracker.call K) :=
  (λ p, DependencyTracker.Add p.1 p.2) <$> adds.
End closed_forms.

Import Graphs DependencyTracker.

(** * Facts *)

(** ** The result monad *)

Lemma foldl_bind_Raise {K A B} (f : A → B → res K A) (e : exn K) (l : list B) :
  foldl (λ acc b, a ←! acc; f a b) (Raise e) l = Raise e.
Proof. induction l as [|b l IH]; simpl; [done|apply IH]. Qed.

(** ** The loops of [resolve] *)

Section resolve_loops.
Context {K : Type} `{!EqDecision K, !Countable K}.

Local Abbreviation tracker := (gmap K (gset K)).

Implicit Types (self m : tracker) (d t k : K) (v : gset K).

Lemma add_eq d t self : add d t self = Return (added d t self).
Proof.
  unfold add, added, get_or_empty, getitem.
  destruct (decide (d ∈ dom self)) as [Hin|Hin].
  - apply elem_of_dom in Hin as [v Hv]. by rewrite Hv.
  - apply not_elem_of_dom in Hin. rewrite lookup_insert_eq, Hin. simpl.
    by rewrite insert_insert_eq.
Qed.

Lemma purge_loop d (l : list (K * gset K)) : ∀ m0 r0,
  NoDup l.*1 →
  (∀ k v, (k, v) ∈ l → m0 !! k = Some v) →
  ∃ m1, foldl (purge_item d) (Return (m0, r0)) l = Return (m1, r0 ++ emptied d l)
        ∧ ∀ k, m1 !! k = if decide (k ∈ l.*1)
                         then (λ v, v ∖ {[d]}) <$> m0 !! k else m0 !! k.
Proof.
  induction l as [|[k v] l IH]; intros m0 r0 Hnd Hl.
  - exists m0. split; [by rewrite app_nil_r|]. intros k. by rewrite decide_False by set_solver.
  - apply NoDup_cons in Hnd as [Hk Hnd]. simpl in Hk.
    assert (Hkv : m0 !! k = Some v) by (apply Hl; left).
    set (m0' := if decide (d ∈ v) then <[k := v ∖ {[d]}]> m0 else m0).
    set (r0' := if decide (d ∈ v ∧ v ∖ {[d]} = ∅) then r0 ++ [k] else r0).
    assert (Hstep : purge_item d (Return (m0, r0)) (k, v) = Return (m0', r0')).
    { unfold purge_item, set_remove, m0', r0'. simpl.
      destruct (decide (d ∈ v)); simpl; [|by rewrite decide_False by tauto].
      destruct (decide (v ∖ {[d]} = ∅)).
      - by rewrite decide_True by done.
      - by rewrite decide_False by tauto. }
    assert (Hother : ∀ k', k' ≠ k → m0' !! k' = m0 !! k').
    { intros k' Hne. unfold m0'. destruct (decide (d ∈ v)); [|done].
      by rewrite lookup_insert_ne. }
    destruct (IH m0' r0' Hnd) as (m1 & Hfold & Hm1).
    { intros k' v' Hin. rewrite Hother; [apply Hl; by right|].
      intros ->. apply Hk, list_elem_of_fmap. by exists (k, v'). }
    exists m1. split.
    + cbn [foldl]. rewrite Hstep, Hfold. f_equal. f_equal.
      unfold emptied, r0'. rewrite filter_cons. simpl.
      destruct (decide (d ∈ v ∧ v ∖ {[d]} = ∅)); simpl; [|done].
      by rewrite <- app_assoc.
    + intros k'. rewrite Hm1. rewrite fmap_cons. simpl.
      destruct (decide (k' = k)) as [->|Hne].
      * rewrite decide_False by done. rewrite decide_True by (by left).
        rewrite Hkv. simpl. unfold m0'. destruct (decide (d ∈ v)).
        -- by rewrite lookup_insert_eq.
        -- rewrite Hkv. f_equal. set_solver.
      * rewrite Hother by done.
        destruct (decide (k' ∈ l.*1)).
        -- by rewrite decide_True by (by right).
        -- by rewrite decide_False by set_solver.
Qed.

Lemma remove_loop (r : list K) : ∀ m,
  NoDup r → (∀ k, k ∈ r → is_Some (m !! k)) →
  ∃ m2, foldl remove_item (Return m) r = Return m2
        ∧ ∀ k, m2 !! k = if decide (k ∈ r) then None else m !! k.
Proof.
  induction r as [|k r IH]; intros m Hnd Hin.
  - exists m. split; [done|]. intros k. by rewrite decide_False by set_solver.
  - apply NoDup_cons in Hnd as [Hk Hnd].
    destruct (Hin k) as [v Hv]; [by left|].
    destruct (IH (delete k m) Hnd) as (m2 & Hfold & Hm2).
    { intros k' Hk'. rewrite lookup_delete_ne by (intros ->; done).
      apply Hin. by right. }
    exists m2. split.
    + cbn [foldl]. unfold remove_item at 2. cbn [bind]. unfold delitem. by rewrite Hv.
    + intros k'. rewrite Hm2. destruct (decide (k' = k)) as [->|Hne].
      * rewrite decide_False by done. rewrite decide_True by (by left).
        apply lookup_delete_eq.
      * rewrite lookup_delete_ne by done.
        destruct (decide (k' ∈ r)).
        -- by rewrite decide_True by (by right).
        -- by rewrite decide_False by set_solver.
Qed.

Lemma purge_lookup d self k : purge d self !! k = self !! k ≫= purged d.
Proof. apply lookup_omap. Qed.

Lemma resolved_lookup d self k :
  resolved d self !! k = if decide (k = d) then None else self !! k ≫= purged d.
Proof.
  unfold resolved. destruct (decide (k = d)) as [->|Hne].
  - apply lookup_delete_eq.
  - rewrite lookup_delete_ne by done. apply purge_lookup.
Qed.

(** The first two loops together compute [purge]. *)
Lemma purge_loops d self :
  ∃ r, foldl (purge_item d) (Return (self, [])) (map_to_list self)
         = Return ((λ v, v ∖ {[d]}) <$> self, r)
       ∧ foldl remove_item (Return ((λ v, v ∖ {[d]}) <$> self)) r
         = Return (purge d self).
Proof.
  destruct (purge_loop d (map_to_list self) self []) as (m1 & Hfold & Hm1).
  { apply NoDup_fst_map_to_list. }
  { intros k v. apply elem_of_map_to_list. }
  assert (m1 = (λ v, v ∖ {[d]}) <$> self) as ->.
  { apply map_eq. intros k. rewrite Hm1, lookup_fmap.
    destruct (decide (k ∈ (map_to_list self).*1)) as [|Hk]; [done|].
    destruct (self !! k) as [v|] eqn:Hv; [|done].
    exfalso. apply Hk, list_elem_of_fmap. exists (k, v).
    split; [done|]. by apply elem_of_map_to_list. }
  exists (emptied d (map_to_list self)). split; [done|].
  assert (Hemptied : ∀ k, k ∈ emptied d (map_to_list self)
            ↔ ∃ v, self !! k = Some v ∧ d ∈ v ∧ v ∖ {[d]} = ∅).
  { intros k. unfold emptied. rewrite list_elem_of_fmap. split.
    - intros ([k' v] & -> & Hin). apply list_elem_of_filter in Hin as [HP Hin].
      apply elem_of_map_to_list in Hin. exists v. simpl in *. tauto.
    - intros (v & Hv & HP). exists (k, v). split; [done|].
      apply list_elem_of_filter. split; [done|]. by apply elem_of_map_to_list. }
  destruct (remove_loop (emptied d (map_to_list self))
              ((λ v, v ∖ {[d]}) <$> self)) as (m2 & Hrm & Hm2).
  { unfold emptied. eapply sublist_NoDup; [apply (NoDup_fst_map_to_list self)|].
    apply fmap_sublist, sublist_filter. }
  { intros k (v & Hv & _)%Hemptied. rewrite lookup_fmap, Hv. by eexists. }
  rewrite Hrm. f_equal. apply map_eq. intros k.
  rewrite Hm2, purge_lookup, lookup_fmap.
  destruct (self !! k) as [v|] eqn:Hv; simpl.
  - unfold purged. destruct (decide (d ∈ v)) as [Hd|Hd].
    + destruct (decide (v ∖ {[d]} = ∅)) as [He|He].
      * rewrite decide_True; [done|]. apply Hemptied. by exists v.
      * rewrite decide_False; [done|].
        intros (v' & Hv' & _ & He')%Hemptied. congruence.
    + rewrite decide_False.
      * f_equal. set_solver.
      * intros (v' & Hv' & Hd' & _)%Hemptied. congruence.
  - by destruct (decide _).
Qed.

Lemma still_waiting_true self t :
  still_waiting self t = true ↔ ∃ k v, self !! k = Some v ∧ t ∈ v.
Proof.
  unfold still_waiting. rewrite existsb_exists. split.
  - intros (v & Hin & Ht). apply bool_decide_eq_true in Ht.
    apply list_elem_of_In, list_elem_of_fmap in Hin as ([k v'] & -> & Hin).
    apply elem_of_map_to_list in Hin. by exists k, v'.
  - intros (k & v & Hv & Ht). exists v. split; [|by apply bool_decide_eq_true].
    apply list_elem_of_In, list_elem_of_fmap. exists (k, v).
    split; [done|]. by apply elem_of_map_to_list.
Qed.

Lemma still_waiting_false self t :
  still_waiting self t = false ↔ ∀ k v, self !! k = Some v → t ∉ v.
Proof.
  rewrite <- not_true_iff_false, still_waiting_true. naive_solver.
Qed.

(** The third loop collects the candidates that are still waiting. *)
Lemma non_free_loop self (l : list K) : ∀ acc t,
  t ∈ foldl (λ (non_free : gset K) p,
               if still_waiting self p then non_free ∪ {[p]} else non_free)
            acc l
  ↔ t ∈ acc ∨ (t ∈ l ∧ still_waiting self t = true).
Proof.
  induction l as [|p l IH]; intros acc t; simpl.
  - set_solver.
  - rewrite IH, elem_of_cons. clear IH.
    destruct (still_waiting self p) eqn:Hp.
    + rewrite elem_of_union, elem_of_singleton.
      intuition (subst; auto).
    + intuition (subst; auto; congruence).
Qed.

(** [resolve] never raises, and its result has a closed form. *)
Lemma resolve_eq d self : resolve d self = Return (freed d self, resolved d self).
Proof.
  unfold resolve. destruct (purge_loops d self) as (r & -> & Hrm).
  cbn [bind]. rewrite Hrm. cbn [bind]. f_equal. f_equal.
  apply set_eq. intros t. unfold freed, resolved.
  rewrite elem_of_difference, non_free_loop, elem_of_filter, elem_of_elements.
  destruct (still_waiting _ t); set_solver.
Qed.
End resolve_loops.

(** ** Edges *)

Section edges.
Context {K : Type} `{!EqDecision K, !Countable K}.

Local Abbreviation tracker := (gmap K (gset K)).

Implicit Types (self m : tracker) (d t k x : K) (v : gset K).

Lemma edge_lookup self d t : edge self d t ↔ ∃ v, self !! d = Some v ∧ t ∈ v.
Proof.
  unfold edge, get_or_empty. destruct (self !! d) as [v|]; simpl.
  - naive_solver.
  - split; [set_solver|]. by intros (v & ? & _).
Qed.

Lemma edge_init d t : ¬ edge (init : tracker) d t.
Proof. unfold edge, get_or_empty, init. rewrite lookup_empty. set_solver. Qed.

Lemma edge_added d' t' self d t :
  edge (added d' t' self) d t ↔ edge self d t ∨ (d = d' ∧ t = t').
Proof.
  unfold edge at 1, added, get_or_empty at 1.
  destruct (decide (d = d')) as [->|Hne].
  - rewrite lookup_insert_eq. simpl. unfold edge. set_solver.
  - rewrite lookup_insert_ne by done. unfold edge, get_or_empty. naive_solver.
Qed.

Lemma elem_of_purged x v v' t :
  purged x v = Some v' → (t ∈ v' ↔ t ∈ v ∧ t ≠ x).
Proof.
  unfold purged. intros Hp.
  destruct (decide (x ∈ v)); [destruct (decide (v ∖ {[x]} = ∅))|];
    simplify_eq; set_solver.
Qed.

Lemma purged_None x v : purged x v = None → ∀ t, t ∈ v → t = x.
Proof.
  unfold purged. intros Hp t Ht.
  destruct (decide (x ∈ v)); [destruct (decide (v ∖ {[x]} = ∅))|];
    simplify_eq. destruct (decide (t = x)); [done|set_solver].
Qed.

Lemma edge_purge x self d t : edge (purge x self) d t ↔ edge self d t ∧ t ≠ x.
Proof.
  rewrite !edge_lookup. setoid_rewrite purge_lookup. split.
  - intros (v' & Hv' & Ht). destruct (self !! d) as [v|]; [|done]. simpl in Hv'.
    apply (elem_of_purged _ _ _ t) in Hv'. naive_solver.
  - intros [(v & Hv & Ht) Hne]. rewrite Hv. simpl.
    destruct (purged x v) as [v'|] eqn:Hp.
    + exists v'. split; [done|]. apply (elem_of_purged _ _ _ t) in Hp. tauto.
    + destruct Hne. by eapply purged_None.
Qed.

Lemma edge_resolved x self d t :
  edge (resolved x self) d t ↔ edge self d t ∧ d ≠ x ∧ t ≠ x.
Proof.
  unfold resolved. destruct (decide (d = x)) as [->|Hne].
  - rewrite edge_lookup. setoid_rewrite lookup_delete_eq. naive_solver.
  - transitivity (edge (purge x self) d t).
    + unfold edge, get_or_empty. by rewrite lookup_delete_ne.
    + rewrite edge_purge. tauto.
Qed.

(** The freed dependants, edge by edge. *)
Lemma elem_of_freed x self t :
  t ∈ freed x self ↔ edge self x t ∧ t ≠ x ∧ ∀ k, k ≠ x → ¬ edge self k t.
Proof.
  unfold freed. rewrite elem_of_filter, still_waiting_false.
  fold (edge (purge x self) x t). rewrite edge_purge. split.
  - intros (Hnone & He & Hne). split_and!; [done..|].
    intros k Hk (v & Hv & Ht)%edge_lookup.
    assert (edge (resolved x self) k t) as (v' & Hv' & Ht')%edge_lookup
      by (apply edge_resolved; split_and!; [apply edge_lookup|..]; eauto).
    by eapply Hnone.
  - intros (He & Hne & Hnone). split; [|done].
    intros k v Hv Ht.
    assert (edge (resolved x self) k t) as (? & ? & _)%edge_resolved
      by (apply edge_lookup; eauto).
    by eapply Hnone.
Qed.

Lemma no_empty_entry_init : no_empty_entry (init : tracker).
Proof. intros k v. unfold init. by rewrite lookup_empty. Qed.

Lemma no_empty_entry_added d t self :
  no_empty_entry self → no_empty_entry (added d t self).
Proof.
  intros Hne k v. unfold added. destruct (decide (k = d)) as [->|Hk].
  - rewrite lookup_insert_eq. intros [= <-]. set_solver.
  - rewrite lookup_insert_ne by done. apply Hne.
Qed.

Lemma no_empty_entry_resolved x self :
  no_empty_entry self → no_empty_entry (resolved x self).
Proof.
  intros Hne k v. rewrite resolved_lookup. destruct (decide (k = x)); [done|].
  destruct (self !! k) as [v0|] eqn:Hv0; [|done]. simpl. unfold purged.
  destruct (decide (x ∈ v0)); [destruct (decide (v0 ∖ {[x]} = ∅))|];
    intros ?; simplify_eq; eauto.
Qed.

(** With no empty entry, the dictionary has a key exactly when it has an
    edge. *)
Lemma empty_iff_no_edge self :
  no_empty_entry self → (self = ∅ ↔ ∀ d t, ¬ edge self d t).
Proof.
  intros Hne. split.
  - intros -> d t. apply edge_init.
  - intros Hno. apply map_empty. intros k.
    destruct (self !! k) as [v|] eqn:Hv; [|done]. exfalso.
    destruct (set_choose_or_empty v) as [[t Ht]|He].
    + apply (Hno k t), edge_lookup. eauto.
    + apply leibniz_equiv in He. by eapply Hne.
Qed.

Lemma all_dependencies_resolved_true self :
  all_dependencies_resolved self = true ↔ self = ∅.
Proof.
  unfold all_dependencies_resolved. rewrite bool_decide_eq_true.
  apply map_size_empty_iff.
Qed.
End edges.

(** ** Sequences of calls *)

Section traces.
Context {K : Type} `{!EqDecision K, !Countable K}.

Local Abbreviation tracker := (gmap K (gset K)).

Implicit Types (self : tracker) (d t x : K) (c : call K) (calls : list (call K)).

Lemma step_eq c self :
  step c self
  = Return (match c with Add _ _ => None | Resolve x => Some (freed x self) end,
            state_after c self).
Proof. destruct c; simpl; [by rewrite add_eq|by rewrite resolve_eq]. Qed.

(** No sequence of calls raises. *)
Lemma exec_eq calls : ∀ self, exec calls self = Return (state_after_all calls self).
Proof.
  unfold exec, state_after_all.
  induction calls as [|c calls IH]; intros self; [done|].
  cbn [foldl bind]. rewrite step_eq. cbn [bind]. apply IH.
Qed.

Lemma state_after_all_app calls1 calls2 self :
  state_after_all (calls1 ++ calls2) self
  = state_after_all calls2 (state_after_all calls1 self).
Proof. apply foldl_app. Qed.

Lemma no_empty_entry_after calls : ∀ self,
  no_empty_entry self → no_empty_entry (state_after_all calls self).
Proof.
  induction calls as [|[d t|x] calls IH]; intros self Hne; [done|..];
    apply IH; simpl;
    [by apply no_empty_entry_added|by apply no_empty_entry_resolved].
Qed.

Lemma unresolved_in_nil d t : unresolved_in d t ([] : list (call K)).
Proof. intros x Hx. by apply elem_of_nil in Hx. Qed.

Lemma unresolved_in_Add d t d' t' calls :
  unresolved_in d t (Add d' t' :: calls) ↔ unresolved_in d t calls.
Proof.
  unfold unresolved_in. split; intros Hu x Hx.
  - apply Hu. by right.
  - apply elem_of_cons in Hx as [?|?]; [done|by apply Hu].
Qed.

Lemma unresolved_in_Resolve d t x calls :
  unresolved_in d t (Resolve x :: calls)
  ↔ (x ≠ d ∧ x ≠ t) ∧ unresolved_in d t calls.
Proof.
  unfold unresolved_in. split.
  - intros Hu. split; [apply Hu; by left|]. intros y Hy. apply Hu. by right.
  - intros [Hx Hu] y Hy. apply elem_of_cons in Hy as [[= ->]|?]; [done|by apply Hu].
Qed.

Lemma live_nil d t : ¬ live d t ([] : list (call K)).
Proof. intros (before & after & Heq & _). by destruct before. Qed.

Lemma live_cons d t c calls :
  live d t (c :: calls) ↔ (c = Add d t ∧ unresolved_in d t calls) ∨ live d t calls.
Proof.
  unfold live. split.
  - intros ([|c' before] & after & Heq & Hu); simplify_eq/=; [by left|].
    right. by exists before, after.
  - intros [[-> Hu]|(before & after & -> & Hu)].
    + by exists [], calls.
    + by exists (c :: before), after.
Qed.

(** The edges after a sequence of calls: those added and not removed since,
    and those of the start that were not removed. *)
Lemma edge_after calls : ∀ self d t,
  edge (state_after_all calls self) d t
  ↔ live d t calls ∨ (edge self d t ∧ unresolved_in d t calls).
Proof.
  induction calls as [|[d' t'|x] calls IH]; intros self d t.
  - pose proof (live_nil d t). pose proof (unresolved_in_nil d t).
    simpl. tauto.
  - change (state_after_all (Add d' t' :: calls) self)
      with (state_after_all calls (added d' t' self)).
    rewrite IH, edge_added, live_cons, unresolved_in_Add.
    split; [|intros [[[[= -> ->] ?]|?]|[? ?]]; tauto].
    intros [?|[[?|[-> ->]] ?]]; tauto.
  - change (state_after_all (Resolve x :: calls) self)
      with (state_after_all calls (resolved x self)).
    rewrite IH, edge_resolved, live_cons, unresolved_in_Resolve.
    split; [intros [?|[(? & ? & ?) ?]]; [tauto|right; split_and!; congruence || done]|].
    intros [[[[=] ?]|?]|[? [[? ?] ?]]]; [tauto|]. right. split_and!; congruence || done.
Qed.

Lemma edge_after_init calls d t :
  edge (state_after_all calls init) d t ↔ live d t calls.
Proof.
  rewrite edge_after. pose proof (edge_init d t). tauto.
Qed.
End traces.

(** ** The claims about [add] and [resolve] *)

Section claims.
Context {K : Type} `{!EqDecision K, !Countable K}.

Local Abbreviation tracker := (gmap K (gset K)).

Implicit Types (self : tracker) (d t x : K) (c : call K) (calls : list (call K)).

Lemma resolved_or_not d t calls :
  unresolved_in d t calls ∨ ∃ x, Resolve x ∈ calls ∧ (x = d ∨ x = t).
Proof.
  induction calls as [|[d' t'|x] calls IH].
  - left. apply unresolved_in_nil.
  - rewrite unresolved_in_Add. destruct IH as [?|(x & ? & ?)]; [by left|].
    right. exists x. split; [by right|done].
  - rewrite unresolved_in_Resolve.
    destruct IH as [?|(y & ? & ?)]; [|right; exists y; split; [by right|done]].
    destruct (decide (x = d)) as [->|?]; [right; exists d; split; [by left|by left]|].
    destruct (decide (x = t)) as [->|?]; [right; exists t; split; [by left|by right]|].
    by left.
Qed.

Lemma not_unresolved_in d t calls :
  ¬ unresolved_in d t calls ↔ ∃ x, Resolve x ∈ calls ∧ (x = d ∨ x = t).
Proof.
  split.
  - intros Hn. by destruct (resolved_or_not d t calls).
  - intros (x & Hx & Hor) Hu. destruct (Hu x Hx). by destruct Hor.
Qed.

Lemma absent_resolved_same d self : absent d (resolved d self).
Proof.
  split.
  - rewrite resolved_lookup. by rewrite decide_True.
  - intros k v Hv Hd.
    assert (edge (resolved d self) k d) as (_ & _ & ?)%edge_resolved
      by (apply edge_lookup; eauto).
    done.
Qed.

Lemma absent_resolved x d self : absent d self → absent d (resolved x self).
Proof.
  intros [Hkey Hval]. split.
  - rewrite resolved_lookup. destruct (decide (d = x)); [done|]. by rewrite Hkey.
  - intros k v Hv Hd.
    assert (edge (resolved x self) k d) as ((v0 & ? & ?)%edge_lookup & _)%edge_resolved
      by (apply edge_lookup; eauto).
    by eapply Hval.
Qed.

Lemma resolved_absent d self : absent d self → resolved d self = self.
Proof.
  intros [Hkey Hval]. apply map_eq. intros k. rewrite resolved_lookup.
  destruct (decide (k = d)) as [->|?]; [done|].
  destruct (self !! k) as [v|] eqn:Hv; [|done]. simpl.
  unfold purged. rewrite decide_False; [done|]. by eapply Hval.
Qed.

Lemma freed_absent d self : absent d self → freed d self = ∅.
Proof.
  intros [Hkey _]. apply set_eq. intros t. rewrite elem_of_freed, edge_lookup.
  rewrite Hkey. set_solver.
Qed.

Lemma added_added d t self : added d t (added d t self) = added d t self.
Proof.
  unfold added at 1. unfold get_or_empty at 1. unfold added.
  rewrite lookup_insert_eq, insert_insert_eq. simpl. f_equal. set_solver.
Qed.

(** C1 (as amended).  [resolve d] never raises and returns exactly the
    direct dependants of [d], other than [d] itself, that appear under no
    remaining key once the entry of [d] is removed and [d] is purged from
    the other dependant-sets. *)
Theorem resolve_returns_unlisted_dependants d self :
  ∃ self',
    resolve d self = Return (dependants_not_listed d self ∖ {[d]}, self')
    ∧ ∀ k, self' !! k = if decide (k = d) then None else self !! k ≫= purged d.
Proof.
  exists (resolved d self). split; [|apply resolved_lookup].
  rewrite resolve_eq. f_equal. f_equal. apply set_eq. intros t.
  rewrite elem_of_freed, elem_of_difference, elem_of_singleton.
  unfold dependants_not_listed. rewrite elem_of_filter, still_waiting_false.
  fold (edge self d t). split.
  - intros (He & Hne & Hnone). split_and!; [|done..].
    intros k v. rewrite lookup_fmap. destruct (decide (k = d)) as [->|Hk].
    + by rewrite lookup_delete_eq.
    + rewrite lookup_delete_ne by done.
      destruct (self !! k) as [v0|] eqn:Hv0; [|done]. intros [= <-] Ht.
      apply (Hnone k Hk), edge_lookup. exists v0. set_solver.
  - intros [[Hnone He] Hne]. split_and!; [done..|].
    intros k Hk (v & Hv & Ht)%edge_lookup.
    apply (Hnone k (v ∖ {[d]})); [|set_solver].
    by rewrite lookup_fmap, lookup_delete_ne, Hv.
Qed.

(** C2.  After [resolve d] the identity [d] occurs nowhere in the
    dictionary: it is not a key and belongs to no dependant-set; a set
    that the purge of [d] emptied has lost its key, and every other set is
    kept under its key with [d] taken out. *)
Theorem resolve_purges_dependency d self :
  ∃ F self',
    resolve d self = Return (F, self')
    ∧ self' !! d = None
    ∧ (∀ k v, self' !! k = Some v → d ∉ v)
    ∧ (∀ k v, self !! k = Some v → d ∈ v → v ∖ {[d]} = ∅ → self' !! k = None)
    ∧ (∀ k v, k ≠ d → self !! k = Some v → v ∖ {[d]} ≠ ∅ →
         self' !! k = Some (v ∖ {[d]})).
Proof.
  exists (freed d self), (resolved d self). split; [apply resolve_eq|].
  destruct (absent_resolved_same d self) as [Hkey Hval].
  split_and!; [done..| |].
  - intros k v Hv Hd He. rewrite resolved_lookup, Hv.
    destruct (decide (k = d)); [done|]. simpl. unfold purged.
    by rewrite !decide_True.
  - intros k v Hk Hv He. rewrite resolved_lookup, Hv, decide_False by done.
    simpl. unfold purged. destruct (decide (d ∈ v)).
    + by rewrite decide_False.
    + f_equal. set_solver.
Qed.

(** C3 (as amended).  [all_dependencies_resolved] is true exactly when the
    dictionary has no key; it is true on a fresh tracker and false right
    after any [add]; after a sequence of calls on a fresh tracker it is
    true exactly when every [add(d, t)] of the sequence is followed by a
    [resolve] of [d] or of [t]. *)
Theorem all_dependencies_resolved_spec :
  (∀ self, all_dependencies_resolved self = true ↔ dom self = ∅)
  ∧ all_dependencies_resolved (init : tracker) = true
  ∧ (∀ d t self, ∃ self',
       add d t self = Return self' ∧ all_dependencies_resolved self' = false)
  ∧ (∀ calls, ∃ self,
       exec calls init = Return self
       ∧ (all_dependencies_resolved self = true
          ↔ ∀ before d t after, calls = before ++ Add d t :: after →
              ∃ x, Resolve x ∈ after ∧ (x = d ∨ x = t))).
Proof.
  split_and!.
  - intros self. rewrite all_dependencies_resolved_true. split.
    + intros ->. apply dom_empty_L.
    + apply dom_empty_inv_L.
  - by apply all_dependencies_resolved_true.
  - intros d t self. exists (added d t self). split; [apply add_eq|].
    apply not_true_iff_false. rewrite all_dependencies_resolved_true.
    unfold added. apply insert_non_empty.
  - intros calls. exists (state_after_all calls init). split; [apply exec_eq|].
    rewrite all_dependencies_resolved_true, empty_iff_no_edge
      by apply no_empty_entry_after, no_empty_entry_init.
    setoid_rewrite edge_after_init. split.
    + intros Hno before d t after ->. apply not_unresolved_in.
      intros Hu. apply (Hno d t). by exists before, after.
    + intros Hall d t (before & after & -> & Hu).
      by apply (not_unresolved_in d t after) in Hu; [|eapply Hall].
Qed.

(** C5 (as amended).  When a [resolve x] issued after the calls [calls]
    on a fresh tracker returns [t], every [add(d, t)] among [calls] is
    either an edge of [x] itself or is followed by a [resolve] of [d] or
    of [t]; so if [t] itself was never passed to [resolve], every
    dependency registered for [t] has been passed to [resolve]. *)
Theorem freed_after_dependencies_resolved calls x t :
  ∃ self F self',
    exec calls init = Return self
    ∧ resolve x self = Return (F, self')
    ∧ (t ∈ F →
       (∀ before d after, calls = before ++ Add d t :: after →
          d = x ∨ ∃ y, Resolve y ∈ after ∧ (y = d ∨ y = t))
       ∧ ((∀ y, Resolve y ∈ calls → y ≠ t) →
          ∀ d, Add d t ∈ calls → Resolve d ∈ calls ++ [Resolve x])).
Proof.
  exists (state_after_all calls init), (freed x (state_after_all calls init)),
    (resolved x (state_after_all calls init)).
  split; [apply exec_eq|]. split; [apply resolve_eq|].
  intros (He & Hne & Hnone)%elem_of_freed.
  assert (Hpos : ∀ before d after, calls = before ++ Add d t :: after →
            d = x ∨ ∃ y, Resolve y ∈ after ∧ (y = d ∨ y = t)).
  { intros before d after ->. destruct (decide (d = x)) as [|Hd]; [by left|].
    right. apply not_unresolved_in. intros Hu.
    apply (Hnone d Hd), edge_after_init. by exists before, after. }
  split; [done|]. intros Hnever d Hadd.
  apply list_elem_of_split in Hadd as (before & after & ->).
  destruct (Hpos before d after eq_refl) as [->|(y & Hy & [->| ->])].
  - apply elem_of_app. right. by left.
  - apply elem_of_app. left. apply elem_of_app. right. by right.
  - destruct (Hnever t); [|done]. apply elem_of_app. right. by right.
Qed.

(** C6.  A second [resolve d], with no [add] in between (other identities
    may be resolved in between), raises nothing, returns the empty set and
    leaves the dictionary unchanged. *)
Theorem resolve_again_is_noop d self (others : list K) :
  ∃ F self' self'',
    resolve d self = Return (F, self')
    ∧ exec (Resolve <$> others) self' = Return self''
    ∧ resolve d self'' = Return (∅, self'').
Proof.
  exists (freed d self), (resolved d self),
    (state_after_all (Resolve <$> others) (resolved d self)).
  split; [apply resolve_eq|]. split; [apply exec_eq|].
  assert (Habs : absent d (state_after_all (Resolve <$> others) (resolved d self))).
  { generalize (absent_resolved_same d self). generalize (resolved d self).
    induction others as [|y others IH]; intros m Hm; [done|].
    apply IH. by apply absent_resolved. }
  by rewrite resolve_eq, freed_absent, resolved_absent.
Qed.

(** C7.  [add] never raises, whatever the pair (a self-reference [add d d]
    and a pair closing a cycle included), and adding the same pair a second
    time leaves the dictionary as the first call left it. *)
Theorem add_idempotent d t self :
  ∃ self', add d t self = Return self' ∧ add d t self' = Return self'.
Proof.
  exists (added d t self). split; [apply add_eq|].
  by rewrite add_eq, added_added.
Qed.

Lemma purged_comm d1 d2 (v : gset K) :
  purged d1 v ≫= purged d2 = purged d2 v ≫= purged d1.
Proof.
  destruct (decide (d1 = d2)) as [->|Hne]; [done|].
  unfold purged.
  destruct (decide (d1 ∈ v)) as [H1|H1], (decide (d2 ∈ v)) as [H2|H2];
    repeat (simpl; case_decide); simplify_eq/=; try done;
    try (f_equal; set_solver); exfalso; set_solver.
Qed.

Lemma resolved_comm d1 d2 self :
  resolved d2 (resolved d1 self) = resolved d1 (resolved d2 self).
Proof.
  apply map_eq. intros k. rewrite !resolved_lookup.
  destruct (decide (k = d1)), (decide (k = d2)); try done.
  destruct (self !! k) as [v|]; [|done]. apply purged_comm.
Qed.

Lemma freed_union_sub d1 d2 self t :
  d1 ≠ d2 → ¬ edge self d1 d2 → ¬ edge self d2 d1 →
  t ∈ freed d2 self ∪ freed d1 (resolved d2 self) →
  t ∈ freed d1 self ∪ freed d2 (resolved d1 self).
Proof.
  intros Hne H12 H21. rewrite !elem_of_union, !elem_of_freed.
  setoid_rewrite edge_resolved.
  intros [(He & Ht2 & Hnone)|((He & _ & Ht2) & Ht1 & Hnone)].
  - assert (Ht1 : t ≠ d1) by (by intros ->).
    right. split_and!; [done..|]. intros k Hk (Hek & _ & _). by apply (Hnone k).
  - destruct (decide (t ∈ get_or_empty self d2)) as [He2|He2].
    + right. split_and!; [done..|]. intros k Hk2 (Hek & Hk1 & _).
      by apply (Hnone k Hk1).
    + left. split_and!; [done..|]. intros k Hk1 Hek.
      destruct (decide (k = d2)) as [->|Hk2]; [done|]. by apply (Hnone k Hk1).
Qed.

(** C8.  For two dependencies neither of which is registered as a dependant
    of the other, resolving one then the other raises nothing and gives the
    same union of freed sets and the same final dictionary in both orders. *)
Theorem resolve_unrelated_commute d1 d2 self :
  d2 ∉ get_or_empty self d1 →
  d1 ∉ get_or_empty self d2 →
  ∃ F self',
    resolve_both d1 d2 self = Return (F, self')
    ∧ resolve_both d2 d1 self = Return (F, self').
Proof.
  intros H12 H21. fold (edge self d1 d2) in H12. fold (edge self d2 d1) in H21.
  exists (freed d1 self ∪ freed d2 (resolved d1 self)), (resolved d2 (resolved d1 self)).
  unfold resolve_both. rewrite !resolve_eq. cbn [bind]. rewrite !resolve_eq. cbn [bind].
  split; [done|]. f_equal. f_equal; [|apply resolved_comm].
  destruct (decide (d1 = d2)) as [->|Hne]; [done|].
  apply set_eq. intros t. split; apply freed_union_sub; done.
Qed.

(** C9.  After any sequence of calls on a fresh tracker, [get_dependants n]
    is the set of the nodes [t] with a live edge [(n, t)], and
    [get_dependencies t] the set of the nodes [n] with a live edge [(n, t)]:
    an edge is live when it was added and neither end was resolved since.
    Both are total functions, and both are empty for a node that occurs
    nowhere in the dictionary. *)
Theorem get_dependants_get_dependencies_spec :
  (∀ calls, ∃ self,
     exec calls init = Return self
     ∧ ∀ n t, (t ∈ get_dependants n self ↔ live n t calls)
              ∧ (n ∈ get_dependencies t self ↔ live n t calls))
  ∧ (∀ self n t, n ∈ get_dependencies t self ↔ t ∈ get_dependants n self)
  ∧ (∀ self n, absent n self →
       get_dependants n self = ∅ ∧ get_dependencies n self = ∅)
  ∧ (∀ n, get_dependants n (init : tracker) = ∅
          ∧ get_dependencies n (init : tracker) = ∅).
Proof.
  assert (Hdeps : ∀ self n t, n ∈ get_dependencies t self ↔ t ∈ get_dependants n self).
  { intros self n t. unfold get_dependencies, get_dependants.
    fold (edge self n t). rewrite edge_lookup, elem_of_dom.
    unfold is_Some. setoid_rewrite map_lookup_filter_Some. simpl. reflexivity. }
  assert (Habsent : ∀ self n, absent n self →
            get_dependants n self = ∅ ∧ get_dependencies n self = ∅).
  { intros self n [Hkey Hval]. split.
    - unfold get_dependants, get_or_empty. by rewrite Hkey.
    - apply set_eq. intros k. rewrite Hdeps. unfold get_dependants.
      fold (edge self k n). rewrite edge_lookup. split; [|set_solver].
      intros (v & Hv & Hn). destruct (Hval k v Hv Hn). }
  split_and!; [|done..|].
  - intros calls. exists (state_after_all calls init). split; [apply exec_eq|].
    intros n t. rewrite Hdeps. unfold get_dependants.
    fold (edge (state_after_all calls init) n t). by rewrite edge_after_init.
  - intros n. apply Habsent. split; [apply lookup_empty|].
    intros k v. unfold init. by rewrite lookup_empty.
Qed.

(** C10 (as amended).  When [add d d] has registered a self-loop and the
    only occurrence of [d] in the dictionary is the entry of [d] with the set
    [{d}], [resolve d] returns the empty set and removes that entry and
    nothing else; [all_dependencies_resolved] is true afterwards exactly
    when that entry was the only one. *)
Theorem resolve_self_loop d self self1 :
  add d d self = Return self1 →
  self1 !! d = Some {[d]} →
  (∀ k v, k ≠ d → self1 !! k = Some v → d ∉ v) →
  resolve d self1 = Return (∅, delete d self1)
  ∧ (all_dependencies_resolved (delete d self1) = true ↔ dom self1 = {[d]}).
Proof.
  intros _ Hd Hother. split.
  - rewrite resolve_eq. f_equal. f_equal.
    + apply set_eq. intros t. rewrite elem_of_freed, edge_lookup, Hd.
      split; [|by intros ?%not_elem_of_empty].
      intros ((v & [= <-] & Ht%elem_of_singleton) & Hne & _). done.
    + apply map_eq. intros k. rewrite resolved_lookup.
      destruct (decide (k = d)) as [->|Hk]; [by rewrite lookup_delete_eq|].
      rewrite lookup_delete_ne by done.
      destruct (self1 !! k) as [v|] eqn:Hv; [|done]. simpl.
      unfold purged. rewrite decide_False; [done|]. by eapply Hother.
  - rewrite all_dependencies_resolved_true. split.
    + intros He. apply set_eq. intros k. rewrite elem_of_singleton, elem_of_dom.
      split; [|intros ->; by rewrite Hd].
      intros Hk. destruct (decide (k = d)) as [|Hne]; [done|]. exfalso.
      rewrite <- (lookup_delete_ne self1 d k), He, lookup_empty in Hk by done.
      by destruct Hk.
    + intros Hdom. apply map_empty. intros k.
      destruct (decide (k = d)) as [->|Hne]; [apply lookup_delete_eq|].
      rewrite lookup_delete_ne by done. apply not_elem_of_dom.
      rewrite Hdom. set_solver.
Qed.
End claims.

(** ** The graph walk *)

Lemma tc_iff {A} (R1 R2 : relation A) x y :
  (∀ a b, R1 a b ↔ R2 a b) → tc R1 x y ↔ tc R2 x y.
Proof.
  intros HR. split; induction 1 as [a b Hab|a b c Hab _ IH];
    solve [apply tc_once, HR, Hab | eapply tc_l; [apply HR, Hab|apply IH]].
Qed.

Section walk.
Context {K : Type} `{!EqDecision K, !Countable K}.
Variable g : K → list K.
Variable keys : gset K.
Hypothesis leaf : ∀ u, u ∉ keys → g u = [].

Implicit Types (marks m : gmap K mark) (node u v : K).

Lemma processed_closed m u v :
  walk_inv g m → m !! u = Some Processed → tc (successor g) u v →
  m !! v = Some Processed.
Proof.
  intros Hinv Hu Htc. induction Htc as [a b Hab|a b c Hab _ IH].
  - by apply (Hinv a Hu).
  - apply IH. by apply (Hinv a Hu).
Qed.

Lemma size_unvisited_mono m m' :
  (∀ u mk, m !! u = Some mk → m' !! u = Some mk) →
  size (keys ∖ dom m') ≤ size (keys ∖ dom m).
Proof.
  intros Hpres. apply subseteq_size. intros u [Hk Hu]%elem_of_difference.
  apply elem_of_difference. split; [done|]. intros [mk Hmk]%elem_of_dom.
  apply Hu, elem_of_dom. exists mk. by apply Hpres.
Qed.

(** Walking a list of nodes, given that a visit with this fuel behaves. *)
Lemma visit_all fuel :
  (∀ node marks,
     size (keys ∖ dom marks) < fuel → walk_inv g marks →
     (∀ u, marks !! u = Some OnPath → tc (successor g) u node) →
     walk_post g marks [node] (visit fuel g node marks)) →
  ∀ nodes m,
    size (keys ∖ dom m) < fuel → walk_inv g m →
    (∀ v u, v ∈ nodes → m !! u = Some OnPath → tc (successor g) u v) →
    walk_post g m nodes
      (foldl (λ acc node, marks ←! acc; visit fuel g node marks) (Return m) nodes).
Proof.
  intros IHfuel nodes. induction nodes as [|v nodes IH]; intros m Hsize Hinv Hpath.
  - simpl. split_and!; [done| |done..]. intros v Hv. by apply elem_of_nil in Hv.
  - cbn [foldl bind].
    pose proof (IHfuel v m Hsize Hinv (λ u, Hpath v u (list_elem_of_here _ _))) as Hv.
    destruct (visit fuel g v m) as [m1|e|]; [|by rewrite foldl_bind_Raise|done].
    destruct Hv as (Hinv1 & Hv1 & Hpres1 & Hpath1).
    specialize (IH m1). destruct (foldl _ (Return m1) nodes) as [m2|e|].
    + destruct IH as (Hinv2 & Hv2 & Hpres2 & Hpath2); [| |
        intros w u Hw Hu; apply Hpath; [by right|by apply Hpath1]|].
      { eapply Nat.le_lt_trans; [by apply size_unvisited_mono|done]. }
      { done. }
      split_and!; [done| |by eauto..].
      intros w [->|Hw]%elem_of_cons; [|by apply Hv2].
      apply Hpres2, Hv1. by left.
    + apply IH; [eapply Nat.le_lt_trans; [by apply size_unvisited_mono|done]|done|].
      intros w u Hw Hu. apply Hpath; [by right|by apply Hpath1].
    + apply IH; [eapply Nat.le_lt_trans; [by apply size_unvisited_mono|done]|done|].
      intros w u Hw Hu. apply Hpath; [by right|by apply Hpath1].
Qed.

(** Marking a node as processed once its successors are. *)
Lemma walk_inv_finish m node :
  walk_inv g m → m !! node = Some OnPath →
  (∀ v, v ∈ g node → m !! v = Some Processed) →
  walk_inv g (<[node := Processed]> m).
Proof.
  intros Hinv Hnode Hsucc.
  assert (Hins : ∀ v, m !! v = Some Processed →
            <[node := Processed]> m !! v = Some Processed).
  { intros v Hv. destruct (decide (v = node)) as [->|?];
      [apply lookup_insert_eq|by rewrite lookup_insert_ne]. }
  intros u Hu. destruct (decide (u = node)) as [->|Hne].
  - split; [intros v Hv; by apply Hins, Hsucc|].
    intros Htc. assert (m !! node = Some Processed); [|congruence].
    inversion Htc as [a b Hab|a b c Hab Hbc]; subst.
    + by apply Hsucc.
    + eapply processed_closed; [done| |done]. by apply Hsucc.
  - rewrite lookup_insert_ne in Hu by done. destruct (Hinv u Hu) as [Hs Hc].
    split; [intros v Hv; by apply Hins, Hs|done].
Qed.

(** A visit with enough fuel processes the node or reports a node that lies
    on a cycle. *)
Lemma visit_spec fuel : ∀ node marks,
  size (keys ∖ dom marks) < fuel → walk_inv g marks →
  (∀ u, marks !! u = Some OnPath → tc (successor g) u node) →
  walk_post g marks [node] (visit fuel g node marks).
Proof.
  induction fuel as [|fuel IHfuel]; intros node marks Hsize Hinv Hpath; [lia|].
  cbn [visit]. destruct (marks !! node) as [[|]|] eqn:Hnode.
  - exists node. split; [done|]. by apply Hpath.
  - split_and!; [done| |done..]. by intros v ->%list_elem_of_singleton.
  - set (m0 := <[node := OnPath]> marks).
    assert (Hm0 : ∀ u, u ≠ node → m0 !! u = marks !! u)
      by (intros u Hu; unfold m0; by rewrite lookup_insert_ne).
    assert (Hinv0 : walk_inv g m0).
    { intros u Hu. assert (u ≠ node) as Hne
        by (intros ->; unfold m0 in Hu; by rewrite lookup_insert_eq in Hu).
      rewrite Hm0 in Hu by done. destruct (Hinv u Hu) as [Hs Hc].
      split; [|done]. intros v Hv. rewrite Hm0; [by apply Hs|].
      intros ->. specialize (Hs node Hv). congruence. }
    assert (Hloop : walk_post g m0 (g node)
              (foldl (λ acc sub, marks ←! acc; visit fuel g sub marks)
                 (Return m0) (g node))).
    { destruct (decide (node ∈ keys)) as [Hkey|Hkey].
      - apply (visit_all fuel IHfuel); [|done|].
        + assert (size (keys ∖ dom m0) < size (keys ∖ dom marks)); [|lia].
          apply subset_size. split.
          * intros u [? Hu]%elem_of_difference. apply elem_of_difference.
            split; [done|]. intros Hd. apply Hu. unfold m0.
            rewrite dom_insert. set_solver.
          * intros Hsub. specialize (Hsub node).
            rewrite !elem_of_difference, !not_elem_of_dom in Hsub.
            destruct Hsub as [_ Hsub]; [done|].
            unfold m0 in Hsub. by rewrite lookup_insert_eq in Hsub.
        + intros v u Hv Hu. destruct (decide (u = node)) as [->|Hne].
          * by apply tc_once.
          * rewrite Hm0 in Hu by done. eapply tc_r; [by apply Hpath|done].
      - rewrite (leaf node Hkey). simpl. split_and!; [done| |done..].
        intros v Hv. by apply elem_of_nil in Hv. }
    destruct (foldl _ (Return m0) (g node)) as [m'|e|]; [|done..].
    destruct Hloop as (Hinv' & Hsucc & Hpres & Hpath').
    assert (Hnode' : m' !! node = Some OnPath)
      by (apply Hpres; unfold m0; apply lookup_insert_eq).
    cbn [bind walk_post]. split_and!.
    + by apply walk_inv_finish.
    + intros v ->%list_elem_of_singleton. apply lookup_insert_eq.
    + intros u mk Hu. assert (u ≠ node) as Hne by congruence.
      rewrite lookup_insert_ne by done. apply Hpres. by rewrite Hm0.
    + intros u Hu. destruct (decide (u = node)) as [->|Hne];
        [by rewrite lookup_insert_eq in Hu|].
      rewrite lookup_insert_ne in Hu by done. rewrite <- Hm0 by done.
      by apply Hpath'.
Qed.

(** The walk from all roots, when every node with a successor is a root:
    it ends normally exactly on an acyclic graph, and otherwise reports a
    node that lies on a cycle. *)
Lemma traverse_graph_spec (roots : list K) :
  (∀ u, u ∈ keys → u ∈ roots) →
  match traverse_graph (S (size keys)) roots g with
  | Return _ => ∀ n, ¬ tc (successor g) n n
  | Raise e => ∃ c, e = CircularDependencyError c ∧ tc (successor g) c c
  | OutOfFuel => False
  end.
Proof.
  intros Hroots. unfold traverse_graph.
  pose proof (visit_all (S (size keys)) (visit_spec (S (size keys))) roots ∅) as Hw.
  destruct (foldl _ (Return ∅) roots) as [m|e|]; cbn [bind].
  - destruct Hw as (Hinv & Hproc & _ & _).
    + assert (size (keys ∖ dom (∅ : gmap K mark)) ≤ size keys); [|lia].
      apply subseteq_size. set_solver.
    + intros u. by rewrite lookup_empty.
    + intros v u _. by rewrite lookup_empty.
    + intros n Htc. assert (n ∈ keys) as Hn.
      { destruct (decide (n ∈ keys)) as [|Hn]; [done|]. exfalso.
        assert (∃ v, v ∈ g n) as [v Hv] by (inversion Htc; subst; eauto).
        rewrite (leaf n Hn) in Hv. by apply elem_of_nil in Hv. }
      by apply (Hinv n (Hproc n (Hroots n Hn))).
  - apply Hw.
    + assert (size (keys ∖ dom (∅ : gmap K mark)) ≤ size keys); [|lia].
      apply subseteq_size. set_solver.
    + intros u. by rewrite lookup_empty.
    + intros v u _. by rewrite lookup_empty.
  - apply Hw.
    + assert (size (keys ∖ dom (∅ : gmap K mark)) ≤ size keys); [|lia].
      apply subseteq_size. set_solver.
    + intros u. by rewrite lookup_empty.
    + intros v u _. by rewrite lookup_empty.
Qed.
End walk.

(** ** Cycle detection on the tracker *)

Section cycles.
Context {K : Type} `{!EqDecision K, !Countable K}.

Local Abbreviation tracker := (gmap K (gset K)).

Implicit Types (self : tracker) (d t n : K) (adds : list (K * K)).

Lemma successor_edge self d t :
  successor (λ node, elements (get_or_empty self node)) d t ↔ edge self d t.
Proof. unfold successor, edge. apply elem_of_elements. Qed.

(** [check_circular_dependencies] on any dictionary. *)
Lemma check_circular_dependencies_result self :
  match check_circular_dependencies self with
  | Return _ => ∀ n, ¬ tc (edge self) n n
  | Raise e => ∃ c, e = CircularDependencyError c ∧ tc (edge self) c c
  | OutOfFuel => False
  end.
Proof.
  unfold check_circular_dependencies. rewrite <- (size_dom (D:=gset K)).
  pose proof (traverse_graph_spec
                (λ node, elements (get_or_empty self node)) (dom self)) as Hw.
  specialize (Hw ltac:(intros u Hu%not_elem_of_dom; unfold get_or_empty;
                         rewrite Hu; apply elements_empty)
                 (map_to_list self).*1
                 ltac:(intros u [v Hv]%elem_of_dom; apply list_elem_of_fmap;
                         exists (u, v); split; [done|by apply elem_of_map_to_list])).
  destruct (traverse_graph _ _ _) as [[]|e|]; [|destruct Hw as (c & -> & Hc)|done].
  - intros n Hn. apply (Hw n). revert Hn. apply tc_iff. intros a b.
    by rewrite successor_edge.
  - exists c. split; [done|]. revert Hc. apply tc_iff. intros a b.
    by rewrite successor_edge.
Qed.

Lemma unresolved_in_add_calls d t adds : unresolved_in d t (add_calls adds).
Proof.
  intros x ([d' t'] & [=] & _)%list_elem_of_fmap.
Qed.

Lemma live_add_calls d t adds : live d t (add_calls adds) ↔ registered adds d t.
Proof.
  unfold registered, add_calls. split.
  - intros (before & after & Heq & _).
    assert (Add d t ∈ (λ p : K * K, Add p.1 p.2) <$> adds) as Hin
      by (rewrite Heq; apply elem_of_app; right; by left).
    apply list_elem_of_fmap in Hin as ([d' t'] & [= -> ->] & Hin). done.
  - intros (l1 & l2 & ->)%list_elem_of_split.
    exists (add_calls l1), (add_calls l2). split.
    + unfold add_calls. by rewrite fmap_app.
    + apply unresolved_in_add_calls.
Qed.

(** C4.  After any sequence of [add] calls on a fresh tracker (no call
    raises), [check_circular_dependencies] returns normally when the
    registered edges form a DAG, and when they contain a cycle it raises
    [CircularDependencyError] naming a node that lies on a cycle. *)
Theorem check_circular_dependencies_spec adds :
  ∃ self,
    exec (add_calls adds) init = Return self
    ∧ ((∀ n, ¬ tc (registered adds) n n) →
       check_circular_dependencies self = Return ())
    ∧ (∀ n, tc (registered adds) n n →
       ∃ c, check_circular_dependencies self = Raise (CircularDependencyError c)
            ∧ tc (registered adds) c c).
Proof.
  exists (state_after_all (add_calls adds) init). split; [apply exec_eq|].
  assert (Hrel : ∀ a b, edge (state_after_all (add_calls adds) init) a b
                        ↔ registered adds a b).
  { intros a b. by rewrite edge_after_init, live_add_calls. }
  pose proof (check_circular_dependencies_result
                (state_after_all (add_calls adds) init)) as Hres.
  destruct (check_circular_dependencies _) as [[]|e|]; [| |done].
  - split; [done|]. intros n Hn. destruct (Hres n). revert Hn. by apply tc_iff.
  - destruct Hres as (c & -> & Hc). apply (tc_iff _ _ _ _ Hrel) in Hc. split.
    + intros Hdag. destruct (Hdag c Hc).
    + intros n _. by exists c.
Qed.
End cycles.

(** ** More about [add] and [resolve] *)

Section more.
Context {K : Type} `{!EqDecision K, !Countable K}.

Local Abbreviation tracker := (gmap K (gset K)).

Implicit Types (self : tracker) (d t x k : K) (v : gset K) (xs : list K).

Lemma added_lookup d t self k :
  added d t self !! k
  = if decide (k = d) then Some (get_or_empty self d ∪ {[t]}) else self !! k.
Proof.
  unfold added. destruct (decide (k = d)) as [->|?].
  - apply lookup_insert_eq.
  - by rewrite lookup_insert_ne.
Qed.

Lemma resolved_lookup_Some d self k v' :
  resolved d self !! k = Some v' →
  k ≠ d ∧ ∃ v, self !! k = Some v ∧ v' = v ∖ {[d]}.
Proof.
  rewrite resolved_lookup. destruct (decide (k = d)); [done|].
  destruct (self !! k) as [v|]; [|done]. simpl. unfold purged. intros Hp.
  split; [done|]. exists v. split; [done|].
  destruct (decide (d ∈ v)); [destruct (decide (v ∖ {[d]} = ∅))|];
    simplify_eq; [done|set_solver].
Qed.

Lemma state_after_resolves_cons x xs self :
  state_after_all (Resolve <$> x :: xs) self
  = state_after_all (Resolve <$> xs) (resolved x self).
Proof. done. Qed.

Lemma not_listed_after_resolves t xs : ∀ self,
  (∀ k v, self !! k = Some v → t ∉ v) →
  ∀ k v, state_after_all (Resolve <$> xs) self !! k = Some v → t ∉ v.
Proof.
  induction xs as [|x xs IH]; intros self Hno; [done|].
  rewrite state_after_resolves_cons. apply IH.
  intros k v' (_ & v & Hv & ->)%resolved_lookup_Some Ht.
  apply (Hno k v Hv). set_solver.
Qed.

Lemma dom_after_resolves xs : ∀ self k,
  k ∈ dom (state_after_all (Resolve <$> xs) self) → k ∈ dom self ∧ k ∉ xs.
Proof.
  induction xs as [|x xs IH]; intros self k Hk.
  - split; [done|]. apply not_elem_of_nil.
  - rewrite state_after_resolves_cons in Hk. apply IH in Hk as [Hk Hxs].
    apply elem_of_dom in Hk as [v' (Hne & v & Hv & _)%resolved_lookup_Some].
    split; [apply elem_of_dom; eauto|]. by intros [?|?]%elem_of_cons.
Qed.

(** X1.  [add] returns normally; the entry of the dependency becomes its
    former set (empty when there was no key) with the dependant added, every
    other entry is left as it was, and so the edges afterwards are the
    former ones and the new one. *)
Theorem add_extends_one_entry d t self :
  ∃ self',
    add d t self = Return self'
    ∧ self' !! d = Some (get_or_empty self d ∪ {[t]})
    ∧ (∀ k, k ≠ d → self' !! k = self !! k)
    ∧ (∀ a b, b ∈ get_or_empty self' a
              ↔ b ∈ get_or_empty self a ∨ (a = d ∧ b = t)).
Proof.
  exists (added d t self). split; [apply add_eq|]. split_and!.
  - by rewrite added_lookup, decide_True.
  - intros k Hk. by rewrite added_lookup, decide_False.
  - intros a b. apply edge_added.
Qed.

(** X2.  Two [add] calls commute: either order returns normally with the
    same dictionary. *)
Theorem add_commute d1 t1 d2 t2 self :
  ∃ self',
    (s ←! add d1 t1 self; add d2 t2 s) = Return self'
    ∧ (s ←! add d2 t2 self; add d1 t1 s) = Return self'.
Proof.
  exists (added d2 t2 (added d1 t1 self)). rewrite !add_eq. cbn [bind].
  rewrite !add_eq. split; [done|]. f_equal.
  apply map_eq. intros k. rewrite !added_lookup. unfold get_or_empty.
  rewrite !added_lookup. unfold get_or_empty.
  repeat case_decide; simplify_eq; try done; simpl; f_equal; set_solver.
Qed.

(** X3.  From a fresh tracker no sequence of calls raises, and no key ever
    holds an empty set: [add] puts a dependant into the set it creates, and
    [resolve] deletes the keys whose sets it empties. *)
Theorem stored_sets_never_empty (calls : list (call K)) :
  ∃ self,
    exec calls init = Return self
    ∧ ∀ k v, self !! k = Some v → v ≠ ∅.
Proof.
  exists (state_after_all calls init). split; [apply exec_eq|].
  apply no_empty_entry_after, no_empty_entry_init.
Qed.

(** X4.  [resolve] only removes: the returned set is part of the former
    entry of the dependency, and every entry left is a former entry of
    another key with the dependency taken out of its set. *)
Theorem resolve_only_removes d self :
  ∃ F self',
    resolve d self = Return (F, self')
    ∧ F ⊆ get_or_empty self d
    ∧ ∀ k v', self' !! k = Some v' →
        k ≠ d ∧ ∃ v, self !! k = Some v ∧ v' = v ∖ {[d]}.
Proof.
  exists (freed d self), (resolved d self). split; [apply resolve_eq|]. split.
  - intros t (He & _)%elem_of_freed. done.
  - intros k v'. apply resolved_lookup_Some.
Qed.

(** X5.  Resolving an identity that is no key and belongs to no set raises
    nothing ([pop] falls back on the empty default), returns the empty set
    and leaves the dictionary as it was. *)
Theorem resolve_unknown d self :
  self !! d = None →
  (∀ k v, self !! k = Some v → d ∉ v) →
  resolve d self = Return (∅, self).
Proof.
  intros Hkey Hval. assert (absent d self) by done.
  by rewrite resolve_eq, freed_absent, resolved_absent.
Qed.

(** X6.  When the dependency is in no dependant-set (it is resolved after
    its own dependencies), [resolve] removes its entry and touches no other:
    it returns the dependants that no other key lists. *)
Theorem resolve_in_order d self :
  (∀ k v, self !! k = Some v → d ∉ v) →
  ∃ F,
    resolve d self = Return (F, delete d self)
    ∧ ∀ t, t ∈ F ↔ t ∈ get_or_empty self d
                    ∧ ∀ k, k ≠ d → t ∉ get_or_empty self k.
Proof.
  intros Hval. exists (freed d self). split.
  - rewrite resolve_eq. f_equal. f_equal. apply map_eq. intros k.
    rewrite resolved_lookup. destruct (decide (k = d)) as [->|Hk].
    + by rewrite lookup_delete_eq.
    + rewrite lookup_delete_ne by done.
      destruct (self !! k) as [v|] eqn:Hv; [|done]. simpl.
      unfold purged. rewrite decide_False; [done|]. by eapply Hval.
  - intros t. rewrite elem_of_freed. unfold edge. split; [tauto|].
    intros [Ht Hnone]. split_and!; [done| |done].
    intros ->. unfold get_or_empty in Ht.
    destruct (self !! d) as [v|] eqn:Hv; [by eapply Hval|set_solver].
Qed.

(** X7.  [add] then [resolve] is a round trip: for a dependency that occurs
    nowhere and a different dependant that no key lists, [resolve] returns
    exactly that dependant and gives back the dictionary of before the
    [add]. *)
Theorem add_resolve_round_trip d t self :
  d ≠ t →
  self !! d = None →
  (∀ k v, self !! k = Some v → (d ∉ v) ∧ (t ∉ v)) →
  ∃ self1, add d t self = Return self1 ∧ resolve d self1 = Return ({[t]}, self).
Proof.
  intros Hne Hkey Hval. exists (added d t self). split; [apply add_eq|].
  rewrite resolve_eq. f_equal. f_equal.
  - apply set_eq. intros b. rewrite elem_of_freed, elem_of_singleton.
    setoid_rewrite edge_added. split.
    + intros ([(v & Hv & _)%edge_lookup|[_ ->]] & _); [congruence|done].
    + intros ->. split_and!; [by right|done|].
      intros k Hk [(v & Hv & Ht)%edge_lookup|[-> _]]; [|done].
      by destruct (Hval k v Hv).
  - apply map_eq. intros k. rewrite resolved_lookup, added_lookup.
    destruct (decide (k = d)) as [->|Hk]; [done|].
    destruct (self !! k) as [v|] eqn:Hv; [|done]. simpl.
    unfold purged. rewrite decide_False; [done|]. by destruct (Hval k v Hv).
Qed.

(** X8.  With no [add] in between, a dependant is returned at most once: a
    node returned by [resolve d] is returned by no later [resolve], whatever
    is resolved in between. *)
Theorem freed_at_most_once d self xs x :
  ∃ F s1 s2 F' s3,
    resolve d self = Return (F, s1)
    ∧ exec (Resolve <$> xs) s1 = Return s2
    ∧ resolve x s2 = Return (F', s3)
    ∧ ∀ t, t ∈ F → t ∉ F'.
Proof.
  exists (freed d self), (resolved d self),
    (state_after_all (Resolve <$> xs) (resolved d self)),
    (freed x (state_after_all (Resolve <$> xs) (resolved d self))),
    (resolved x (state_after_all (Resolve <$> xs) (resolved d self))).
  split; [apply resolve_eq|]. split; [apply exec_eq|]. split; [apply resolve_eq|].
  intros t Ht ((v & Hv & Hin)%edge_lookup & _)%elem_of_freed.
  unfold freed in Ht. apply elem_of_filter in Ht as [Hno _].
  rewrite still_waiting_false in Hno.
  by eapply (not_listed_after_resolves t xs (resolved d self)).
Qed.

(** X9.  The dictionary left by a series of [resolve] calls does not depend
    on their order. *)
Theorem resolve_order_irrelevant xs ys self :
  xs ≡ₚ ys →
  exec (Resolve <$> xs) self = exec (Resolve <$> ys) self.
Proof.
  intros Hperm. rewrite !exec_eq. f_equal. revert self.
  induction Hperm as [|x xs ys _ IH|x y xs|xs ys zs _ IH1 _ IH2]; intros self.
  - done.
  - rewrite !state_after_resolves_cons. apply IH.
  - rewrite !state_after_resolves_cons. by rewrite resolved_comm.
  - by rewrite IH1.
Qed.

(** X10.  Once every key of the dictionary has been passed to [resolve],
    in any order, the dictionary is empty and [all_dependencies_resolved]
    is true. *)
Theorem resolving_every_key_empties xs self :
  (∀ k, k ∈ dom self → k ∈ xs) →
  ∃ s1,
    exec (Resolve <$> xs) self = Return s1
    ∧ s1 = ∅
    ∧ all_dependencies_resolved s1 = true.
Proof.
  intros Hall. exists (state_after_all (Resolve <$> xs) self).
  split; [apply exec_eq|].
  assert (state_after_all (Resolve <$> xs) self = ∅) as ->; [|done].
  apply map_empty. intros k. apply not_elem_of_dom.
  intros [Hk Hxs]%dom_after_resolves. by apply Hxs, Hall.
Qed.

(** X11.  Resolving a key makes the dictionary strictly smaller. *)
Theorem resolve_key_shrinks d self :
  d ∈ dom self →
  ∃ F s1, resolve d self = Return (F, s1) ∧ size s1 < size self.
Proof.
  intros Hd. exists (freed d self), (resolved d self).
  split; [apply resolve_eq|].
  rewrite <- !(size_dom (D:=gset K)). apply subset_size. split.
  - intros k [v' (_ & v & Hv & _)%resolved_lookup_Some]%elem_of_dom.
    apply elem_of_dom. eauto.
  - intros Hsub. specialize (Hsub d Hd).
    apply elem_of_dom in Hsub as [v' (Hne & _)%resolved_lookup_Some]. done.
Qed.

(** X12.  A waiting dependant is eventually returned: when a series of
    [resolve] calls covers every key and does not resolve the node [t]
    itself, one of the calls returns [t]. *)
Theorem waiting_dependant_eventually_freed xs : ∀ self t,
  (∃ k v, self !! k = Some v ∧ t ∈ v) →
  t ∉ xs →
  (∀ k, k ∈ dom self → k ∈ xs) →
  ∃ before x after s F s1,
    xs = before ++ x :: after
    ∧ exec (Resolve <$> before) self = Return s
    ∧ resolve x s = Return (F, s1)
    ∧ t ∈ F.
Proof.
  induction xs as [|x xs IH]; intros self t (k & v & Hv & Ht) Hxs Hall.
  - destruct (not_elem_of_nil k). apply Hall, elem_of_dom. eauto.
  - apply not_elem_of_cons in Hxs as [Htx Hxs].
    destruct (decide (t ∈ freed x self)) as [Hf|Hf].
    + exists [], x, xs, self, (freed x self), (resolved x self).
      split_and!; [done|done|apply resolve_eq|done].
    + destruct (IH (resolved x self) t)
        as (before & y & after & s & F & s1 & -> & He & Hr & HF).
      * apply dec_stable. intros Hno. apply Hf, elem_of_freed.
        assert (Hother : ∀ k', k' ≠ x → ¬ edge self k' t).
        { intros k' Hk' (v0 & Hv0 & Ht0)%edge_lookup. apply Hno.
          assert (edge (resolved x self) k' t) as (v1 & ? & ?)%edge_lookup
            by (apply edge_resolved; split_and!; [apply edge_lookup; eauto|done..]).
          eauto. }
        split_and!; [|done..].
        destruct (decide (k = x)) as [->|Hk]; [apply edge_lookup; eauto|].
        destruct (Hother k Hk). apply edge_lookup. eauto.
      * done.
      * intros k' [v' (Hne & v0 & Hv0 & _)%resolved_lookup_Some]%elem_of_dom.
        assert (k' ∈ x :: xs) as [?|?]%elem_of_cons
          by (apply Hall, elem_of_dom; eauto); done.
      * exists (x :: before), y, after, s, F, s1. split_and!; [done| |done..].
        rewrite exec_eq in He |- *. by rewrite state_after_resolves_cons.
Qed.
(** X13.  After any sequence of calls on a fresh tracker,
    [all_dependencies_resolved] is true exactly when no node is registered
    as a dependant any more: a key never stays behind with an empty set. *)
Theorem all_dependencies_resolved_iff_nothing_waits (calls : list (call K)) :
  ∃ self,
    exec calls init = Return self
    ∧ (all_dependencies_resolved self = true
       ↔ ∀ d t, t ∉ get_or_empty self d).
Proof.
  exists (state_after_all calls init). split; [apply exec_eq|].
  rewrite all_dependencies_resolved_true.
  apply empty_iff_no_edge, no_empty_entry_after, no_empty_entry_init.
Qed.
End more.

(** ** Concrete trackers, with integers as identities *)

Example doc_resolve :
  (s ←! add 0 1 init; s ←! add 0 2 s; s ←! add 2 3 s;
   '(r1, s) ←! resolve 0 s;
   '(r2, s) ←! resolve 2 s;
   Return (r1, r2, all_dependencies_resolved s))
  = Return (K:=nat) ({[1; 2]}, {[3]}, true).
Proof. vm_compute. reflexivity. Qed.

Example doc_check_circular_dependencies :
  ∃ c : nat,
    (s ←! add 0 1 init; s ←! add 1 0 s; check_circular_dependencies s)
    = Raise (CircularDependencyError c).
Proof. eexists. vm_compute. reflexivity. Qed.

Example doc_check_circular_dependencies_chain :
  (s ←! add 0 1 init; s ←! add 1 2 s; check_circular_dependencies s)
  = Return (K:=nat) ().
Proof. vm_compute. reflexivity. Qed.

Example diamond :
  (s ←! exec [Add 0 1; Add 0 2; Add 1 3; Add 2 3] init;
   _ ←! check_circular_dependencies s;
   '(r0, s) ←! resolve 0 s;
   '(r1, s) ←! resolve 1 s;
   '(r2, s) ←! resolve 2 s;
   Return (r0, r1, r2, all_dependencies_resolved s))
  = Return (K:=nat) ({[1; 2]}, ∅, {[3]}, true).
Proof. vm_compute. reflexivity. Qed.

(** C1, as stated, fails on a self-loop: the entry of [0] holds [0], which no
    remaining key lists once the entry is removed, yet [resolve 0] returns
    the empty set. *)
Lemma resolve_self_loop_not_reported :
  resolve 0 ({[0 := {[0]}]} : gmap nat (gset nat)) = Return (∅, ∅)
  ∧ dependants_not_listed 0 ({[0 := {[0]}]} : gmap nat (gset nat)) = {[0]}
  ∧ (∅ : gset nat) ≠ {[0]}.
Proof.
  split_and!; [vm_compute; reflexivity..|].
  intros Heq. assert (0 ∈ (∅ : gset nat)) as Hin by (rewrite Heq; set_solver).
  by apply not_elem_of_empty in Hin.
Qed.

(** C3, as stated, fails when a dependant is resolved before its dependency:
    after [add(0, 1)] and [resolve(1)] the dictionary is empty although [0],
    registered by [add], was never passed to [resolve]. *)
Lemma all_resolved_with_unresolved_dependency :
  exec [Add 0 1; Resolve 1] init = Return (K:=nat) ∅
  ∧ all_dependencies_resolved (∅ : gmap nat (gset nat)) = true
  ∧ Resolve 0 ∉ [Add 0 1; Resolve 1].
Proof.
  split_and!; [vm_compute; reflexivity..|].
  intros [[=]|[[=]|[]%elem_of_nil]%elem_of_cons]%elem_of_cons.
Qed.

(** C5, as stated, fails when a dependant is resolved before its dependency:
    [resolve(2)] returns [1] although [0], registered by [add(0, 1)], was
    never passed to [resolve]. *)
Lemma freed_with_unresolved_dependency :
  ∃ self self' : gmap nat (gset nat),
    exec [Add 0 1; Resolve 1; Add 2 1] init = Return self
    ∧ resolve 2 self = Return ({[1]}, self')
    ∧ Add 0 1 ∈ [Add 0 1; Resolve 1; Add 2 1]
    ∧ Resolve 0 ∉ [Add 0 1; Resolve 1; Add 2 1] ++ [Resolve 2].
Proof.
  exists {[2 := {[1]}]}, ∅. split_and!; [vm_compute; reflexivity..|by left|].
  simpl.
  intros [[=]|[[=]|[[=]|[[=]|[]%elem_of_nil]%elem_of_cons]%elem_of_cons]%elem_of_cons]%elem_of_cons.
Qed.

(** C8 on the diamond [0 → 2], [1 → 2]: both orders free [2] and empty the
    dictionary. *)
Lemma resolve_unrelated_commute_diamond :
  ∃ (F : gset nat) (self' : gmap nat (gset nat)),
    resolve_both 0 1 {[0 := {[2]}; 1 := {[2]}]} = Return (F, self')
    ∧ resolve_both 1 0 {[0 := {[2]}; 1 := {[2]}]} = Return (F, self').
Proof.
  apply (resolve_unrelated_commute 0 1 {[0 := {[2]}; 1 := {[2]}]});
    apply (bool_decide_unpack _); vm_compute; exact I.
Defined.

(** C10, as stated, fails when the dictionary holds other entries: the
    self-loop [0 → 0] is the only occurrence of [0], [resolve 0] returns the
    empty set, and [all_dependencies_resolved] is false afterwards. *)
Lemma self_loop_resolved_others_pending :
  ∃ self1 self2 : gmap nat (gset nat),
    add 0 0 {[5 := {[6]}]} = Return self1
    ∧ self1 !! 0 = Some {[0]}
    ∧ (∀ k v, k ≠ 0 → self1 !! k = Some v → 0 ∉ v)
    ∧ resolve 0 self1 = Return (∅, self2)
    ∧ all_dependencies_resolved self2 = false.
Proof.
  exists (<[0 := {[0]}]> {[5 := {[6]}]}), {[5 := {[6]}]}.
  split_and!; try (vm_compute; reflexivity).
  intros k v Hk. rewrite lookup_insert_ne by done.
  intros [_ <-]%lookup_singleton_Some. set_solver.
Qed.

(** C10 (as amended) on a fresh tracker. *)
Lemma resolve_self_loop_fresh :
  resolve 0 ({[0 := {[0]}]} : gmap nat (gset nat))
  = Return (∅, delete 0 {[0 := {[0]}]})
  ∧ (all_dependencies_resolved (delete 0 ({[0 := {[0]}]} : gmap nat (gset nat))) = true
     ↔ dom ({[0 := {[0]}]} : gmap nat (gset nat)) = {[0]}).
Proof.
  apply (resolve_self_loop 0 init).
  - vm_compute. reflexivity.
  - vm_compute. reflexivity.
  - intros k v Hk. by rewrite lookup_singleton_ne.
Defined.

(** X5 on the dictionary [{0: {1}}] and the unknown identity [7]. *)
Lemma resolve_unknown_seven :
  resolve 7 ({[0 := {[1]}]} : gmap nat (gset nat)) = Return (∅, {[0 := {[1]}]}).
Proof.
  apply (resolve_unknown 7 {[0 := {[1]}]}).
  - vm_compute. reflexivity.
  - intros k v [_ <-]%lookup_singleton_Some. set_solver.
Defined.

(** X6 on [{0: {1, 2}, 3: {2}}]: resolving [0] frees [1] and keeps [2]
    waiting for [3]. *)
Lemma resolve_in_order_fan :
  ∃ F : gset nat,
    resolve 0 (<[0 := {[1; 2]}]> {[3 := {[2]}]})
    = Return (F, delete 0 (<[0 := {[1; 2]}]> {[3 := {[2]}]}))
    ∧ ∀ t, t ∈ F ↔ t ∈ get_or_empty (<[0 := {[1; 2]}]> {[3 := {[2]}]}) 0
                    ∧ ∀ k, k ≠ 0 →
                        t ∉ get_or_empty (<[0 := {[1; 2]}]> {[3 := {[2]}]}) k.
Proof.
  apply (resolve_in_order 0 (<[0 := {[1; 2]}]> {[3 := {[2]}]})).
  intros k v. rewrite lookup_insert. case_decide.
  - intros [= <-]. set_solver.
  - intros [_ <-]%lookup_singleton_Some. set_solver.
Defined.

(** X7 on [{2: {3}}] with the new edge [0 → 1]. *)
Lemma add_resolve_round_trip_fresh_edge :
  ∃ self1 : gmap nat (gset nat),
    add 0 1 {[2 := {[3]}]} = Return self1
    ∧ resolve 0 self1 = Return ({[1]}, {[2 := {[3]}]}).
Proof.
  apply (add_resolve_round_trip 0 1 {[2 := {[3]}]}).
  - lia.
  - vm_compute. reflexivity.
  - intros k v [_ <-]%lookup_singleton_Some. set_solver.
Defined.

(** X9 on the chain [0 → 1 → 2], resolved in both orders. *)
Lemma resolve_order_irrelevant_chain :
  exec (Resolve <$> [0; 1]) (<[0 := {[1]}]> {[1 := {[2]}]} : gmap nat (gset nat))
  = exec (Resolve <$> [1; 0]) (<[0 := {[1]}]> {[1 := {[2]}]}).
Proof.
  apply (resolve_order_irrelevant [0; 1] [1; 0]). apply perm_swap.
Defined.

(** X10 on the chain [0 → 1 → 2], resolved against the order. *)
Lemma resolving_every_key_empties_chain :
  ∃ s1 : gmap nat (gset nat),
    exec (Resolve <$> [1; 0]) (<[0 := {[1]}]> {[1 := {[2]}]}) = Return s1
    ∧ s1 = ∅
    ∧ all_dependencies_resolved s1 = true.
Proof.
  apply (resolving_every_key_empties [1; 0] (<[0 := {[1]}]> {[1 := {[2]}]})).
  intros k. rewrite dom_insert_L, dom_singleton_L. set_solver.
Defined.

(** X11 on [{0: {1}}]. *)
Lemma resolve_key_shrinks_single :
  ∃ (F : gset nat) (s1 : gmap nat (gset nat)),
    resolve 0 {[0 := {[1]}]} = Return (F, s1)
    ∧ size s1 < size ({[0 := {[1]}]} : gmap nat (gset nat)).
Proof.
  apply (resolve_key_shrinks 0 {[0 := {[1]}]}).
  rewrite dom_singleton_L. set_solver.
Defined.

(** X12 on the fan-in [0 → 2], [1 → 2]: one of the two calls returns [2]. *)
Lemma waiting_dependant_eventually_freed_fan_in :
  ∃ before x after (s : gmap nat (gset nat)) F s1,
    [0; 1] = before ++ x :: after
    ∧ exec (Resolve <$> before) (<[0 := {[2]}]> {[1 := {[2]}]}) = Return s
    ∧ resolve x s = Return (F, s1)
    ∧ 2 ∈ F.
Proof.
  apply (waiting_dependant_eventually_freed [0; 1] (<[0 := {[2]}]> {[1 := {[2]}]}) 2).
  - exists 0, {[2]}. split; [vm_compute; reflexivity|set_solver].
  - set_solver.
  - intros k. rewrite dom_insert_L, dom_singleton_L. set_solver.
Defined.
